(** * NUTS: a shallow embedding of the No-U-Turn sampler and of the
    power-law example model of [examples/imf_examples.ipynb].

    The sampler core ([nuts6] and its helpers, imported by the notebook
    from the module [nuts]) is modelled from the specification, over the
    real numbers.  The model capability ([logLikelihood],
    [grad_logLikelihood]) is translated from the notebook, generic in the
    float arithmetic ([Notebook.PyFloat]): exact real arithmetic
    ([Notebook.real_arith]) for the analysis of the formulas, and IEEE 754
    binary64 ([Notebook.binary64], from SpecFloat), with the C library's
    [pow] and [log] as parameters, for rounding, underflow, infinities and
    NaN. *)

From Stdlib Require Import Reals Lra Lia List ZArith Bool SpecFloat.
Import ListNotations.

Open Scope R_scope.

(** ** Vectors ([ndarray] of dimension D) *)

Definition vec := list R.

Fixpoint vadd (x y : vec) : vec :=
  match x, y with
  | a :: x', b :: y' => (a + b) :: vadd x' y'
  | _, _ => []
  end.

Definition vscale (c : R) (x : vec) : vec := map (Rmult c) x.

Definition vsub (x y : vec) : vec := vadd x (vscale (-1) y).

Fixpoint dot (x y : vec) : R :=
  match x, y with
  | a :: x', b :: y' => a * b + dot x' y'
  | _, _ => 0
  end.

Definition Rleb (x y : R) : bool := if Rle_dec x y then true else false.
Definition Rltb (x y : R) : bool := if Rlt_dec x y then true else false.

(** ** Data model *)

Record PhaseState := mkPhase { position : vec; momentum : vec }.

(** The target model: [logDensity] returns [None] for a non-finite value
    (infinity or NaN). *)
Record Model := mkModel {
  logDensity : vec -> option R;
  gradLogDensity : vec -> vec
}.

Inductive Direction := Minus | Plus.

Definition dsign (d : Direction) : R :=
  match d with Minus => -1 | Plus => 1 end.

(** ** Leapfrog integrator *)

(** Modelled from the spec: [leapfrog] of the module [nuts] (section 4.1). *)
Definition leapfrog (grad : vec -> vec) (s : PhaseState) (epsilon : R) : PhaseState :=
  let momentum_half := vadd (momentum s) (vscale (epsilon / 2) (grad (position s))) in
  let position_new := vadd (position s) (vscale epsilon momentum_half) in
  let momentum_new := vadd momentum_half (vscale (epsilon / 2) (grad position_new)) in
  mkPhase position_new momentum_new.

(** Joint log-density [logDensity(position) - 0.5 * dot(momentum, momentum)]. *)
Definition jointOf (mdl : Model) (s : PhaseState) : option R :=
  match logDensity mdl (position s) with
  | Some lp => Some (lp - dot (momentum s) (momentum s) / 2)
  | None => None
  end.

(** ** Tree builder *)

(** Node of the doubling tree (section 3, [TreeNode]); [proposalLogp] is
    the log-density of [proposal]. *)
Record TreeNode := mkNode {
  leftmost : PhaseState;
  rightmost : PhaseState;
  proposal : vec;
  proposalLogp : R;
  size : nat;
  continueFlag : bool;
  acceptStatSum : R;
  acceptStatCount : nat
}.

(** No-U-turn criterion: false as soon as the trajectory curves back. *)
Definition noUTurn (lm rm : PhaseState) : bool :=
  let dq := vsub (position rm) (position lm) in
  Rleb 0 (dot dq (momentum lm)) && Rleb 0 (dot dq (momentum rm)).

Section Tree.
Variable mdl : Model.
(** [DivergenceThreshold] of the configuration. *)
Variable divergenceThreshold : R.
(** Uniform draws used for the slice-weighted proposal selection. *)
Variable coin : nat -> R.

(** Modelled from the spec: the base case of [build_tree] of the module
    [nuts] (section 4.3) applied to the state after the leapfrog step.  A
    non-finite log-density is a divergence (section 7); its node has size
    0, so its proposal is never selected. *)
Definition base_node (s' : PhaseState) (logu joint0 : R) : TreeNode :=
  match logDensity mdl (position s') with
  | Some lp =>
      let joint := lp - dot (momentum s') (momentum s') / 2 in
      let nondivergent := Rltb (- divergenceThreshold) (joint - joint0) in
      mkNode s' s' (position s') lp
        (if Rleb logu joint && nondivergent then 1%nat else 0%nat)
        nondivergent (Rmin 1 (exp (joint - joint0))) 1
  | None => mkNode s' s' (position s') joint0 0 false 0 1
  end.

(** Combination of two halves grown in direction [dir]: the second half
    [t2] lies beyond [t1] in that direction. *)
Definition combine (dir : Direction) (t1 t2 : TreeNode) (u : R) : TreeNode :=
  let lm := match dir with Minus => leftmost t2 | Plus => leftmost t1 end in
  let rm := match dir with Minus => rightmost t1 | Plus => rightmost t2 end in
  let take2 := Nat.ltb 0 (size t2)
               && Rltb u (INR (size t2) / INR (size t1 + size t2)) in
  mkNode lm rm
    (if take2 then proposal t2 else proposal t1)
    (if take2 then proposalLogp t2 else proposalLogp t1)
    (size t1 + size t2)
    (continueFlag t1 && continueFlag t2 && noUTurn lm rm)
    (acceptStatSum t1 + acceptStatSum t2)
    (acceptStatCount t1 + acceptStatCount t2).

Definition farEnd (dir : Direction) (t : TreeNode) : PhaseState :=
  match dir with Minus => leftmost t | Plus => rightmost t end.

(** Modelled from the spec: [build_tree] of the module [nuts] (section
    4.3).  [k] indexes the next unused uniform draw of [coin]. *)
Fixpoint buildTree (state : PhaseState) (slice_u : R) (dir : Direction)
    (depth : nat) (epsilon joint0 : R) (k : nat) : TreeNode * nat :=
  match depth with
  | O =>
      (base_node (leapfrog (gradLogDensity mdl) state (dsign dir * epsilon))
         (ln slice_u) joint0, k)
  | S d =>
      let (t1, k1) := buildTree state slice_u dir d epsilon joint0 k in
      if continueFlag t1 then
        let (t2, k2) := buildTree (farEnd dir t1) slice_u dir d epsilon joint0 k1 in
        (combine dir t1 t2 (coin k2), S k2)
      else (t1, k1)
  end.

(** Modelled from the spec: the doubling loop of one iteration (section
    4.5, step 4); at most [fuel] doublings. *)
Fixpoint doubling (dirs : nat -> Direction) (slice_u epsilon joint0 : R)
    (fuel depth : nat) (tree : TreeNode) (k : nat) : TreeNode :=
  match fuel with
  | O => tree
  | S f =>
      if continueFlag tree then
        let dir := dirs depth in
        let (sub, k1) := buildTree (farEnd dir tree) slice_u dir depth epsilon joint0 k in
        doubling dirs slice_u epsilon joint0 f (S depth) (combine dir tree sub (coin k1)) (S k1)
      else tree
  end.
End Tree.

(** ** Sampler driver *)

(** Configuration surface (section 6) of the call [nuts6(nuts_fn, M,
    Madapt, theta0, delta)]. *)
Record Config := mkConfig {
  M : Z;
  Madapt : Z;
  theta0 : vec;
  delta : R;
  maxTreeDepth : nat;
  divergenceThreshold : R
}.

(** The random draws, made explicit: the momentum of iteration [t], its
    Exponential(1) slice draw, the direction of doubling [j] of iteration
    [t], the uniform coins of iteration [t], and the momentum used by the
    step-size heuristic. *)
Record Draws := mkDraws {
  momentumDraw : nat -> vec;
  expDraw : nat -> R;
  dirDraw : nat -> nat -> Direction;
  coinDraw : nat -> nat -> R;
  heuristicMomentum : vec
}.

(** Dual-averaging state (section 3, [AdaptationState]). *)
Record AdaptState := mkAdapt {
  epsilonBar : R;
  hBar : R;
  mu : R;
  iterationIndex : nat
}.

(** State carried by the driver between iterations. *)
Record DriverState := mkDriver {
  cur_pos : vec;
  cur_logp : R;
  eps : R;
  adapt : AdaptState
}.

Record SampleRecord := mkSample {
  sample_position : vec;
  logProbability : R;
  epsilonUsed : R
}.

Inductive SamplerError := InvalidConfiguration.

Inductive Result (A : Type) :=
| Ok (a : A)
| Err (e : SamplerError).
Arguments Ok {A} a.
Arguments Err {A} e.

(** Fixed constants of the dual-averaging adapter. *)
Definition da_gamma : R := 1 / 20.
Definition da_t0 : R := 10.
Definition da_kappa : R := 3 / 4.

(** Modelled from the spec: one dual-averaging update at iteration [t]
    with mean acceptance statistic [alpha_bar] (section 4.4); returns the
    new step size and the new adaptation state. *)
Definition dual_average (delta : R) (a : AdaptState) (t : nat) (alpha_bar : R)
    : R * AdaptState :=
  let eta := 1 / (INR t + da_t0) in
  let hbar := (1 - eta) * hBar a + eta * (delta - alpha_bar) in
  let log_eps := mu a - sqrt (INR t) / da_gamma * hbar in
  let w := Rpower (INR t) (- da_kappa) in
  let log_epsbar := w * log_eps + (1 - w) * ln (epsilonBar a) in
  (exp log_eps, mkAdapt (exp log_epsbar) hbar (mu a) t).

Section Driver.
Variable mdl : Model.
Variable rnd : Draws.
Variable cfg : Config.

Definition madapt : nat := Z.to_nat (Madapt cfg).

(** Acceptance exponent [joint_new - joint_old] of one leapfrog step of
    size [e] from [theta0]; [None] when a joint is not finite. *)
Definition heuristic_ratio (e : R) : option R :=
  let s0 := mkPhase (theta0 cfg) (heuristicMomentum rnd) in
  match jointOf mdl (leapfrog (gradLogDensity mdl) s0 e), jointOf mdl s0 with
  | Some j1, Some j0 => Some (j1 - j0)
  | _, _ => None
  end.

(** [a * (ratio - log(0.5)) > 0] with [a = 1] for [true]; a non-finite
    ratio counts as minus infinity. *)
Definition heuristic_continue (a : bool) (e : R) : bool :=
  match heuristic_ratio e with
  | Some x => if a then Rltb (ln (1 / 2)) x else Rltb x (ln (1 / 2))
  | None => negb a
  end.

Fixpoint heuristic_loop (fuel : nat) (a : bool) (e : R) : R :=
  match fuel with
  | O => e
  | S f =>
      if heuristic_continue a e
      then heuristic_loop f a (if a then e * 2 else e / 2)
      else e
  end.

(** Modelled from the spec: [find_reasonable_epsilon] of the module
    [nuts] (section 4.2), with an iteration cap of 100. *)
Definition findReasonableEpsilon : R :=
  heuristic_loop 100 (heuristic_continue true 1) 1.

Definition freeze (s : DriverState) : DriverState :=
  mkDriver (cur_pos s) (cur_logp s) (epsilonBar (adapt s)) (adapt s).

(** Steps 1-4 of an iteration (section 4.5): the final doubling tree. *)
Definition draw_tree (t : nat) (s : DriverState) : TreeNode :=
  let r0 := momentumDraw rnd t in
  let st := mkPhase (cur_pos s) r0 in
  let joint0 := cur_logp s - dot r0 r0 / 2 in
  let logu := joint0 - expDraw rnd t in
  doubling mdl (divergenceThreshold cfg) (coinDraw rnd t) (dirDraw rnd t)
    (exp logu) (eps s) joint0 (maxTreeDepth cfg) 0
    (mkNode st st (cur_pos s) (cur_logp s) 1 true 0 0) 0.

(** Modelled from the spec: iteration [t] (1-based) of the driver of
    [nuts6] (sections 4.4 and 4.5).  On iteration [Madapt + 1] the step
    size is frozen to [epsilonBar]; the first [Madapt] iterations adapt. *)
Definition iteration (t : nat) (s0 : DriverState) : SampleRecord * DriverState :=
  let s := if Nat.eqb t (S madapt) then freeze s0 else s0 in
  let tree := draw_tree t s in
  let rec := mkSample (proposal tree) (proposalLogp tree) (eps s) in
  if Nat.leb t madapt then
    let (e, a) := dual_average (delta cfg) (adapt s) t
                    (acceptStatSum tree / INR (acceptStatCount tree)) in
    (rec, mkDriver (proposal tree) (proposalLogp tree) e a)
  else (rec, mkDriver (proposal tree) (proposalLogp tree) (eps s) (adapt s)).

Definition init_state (lp0 : R) : DriverState :=
  let e0 := findReasonableEpsilon in
  mkDriver (theta0 cfg) lp0 e0 (mkAdapt 1 0 (ln (10 * e0)) 0).

(** The first [n] iterations from the initial position of log-density
    [lp0]: the final state and the recorded samples, in order. *)
Fixpoint run (lp0 : R) (n : nat) : DriverState * list SampleRecord :=
  match n with
  | O => (init_state lp0, [])
  | S n' =>
      let (s, recs) := run lp0 n' in
      let (r, s') := iteration (S n') s in
      (s', recs ++ [r])
  end.

Definition state_after (lp0 : R) (t : nat) : DriverState := fst (run lp0 t).

(** Modelled from the spec: [nuts6] of the module [nuts] (sections 4.5,
    6 and 7): validation, [M + Madapt] iterations, and the post-warm-up
    slice of the recorded samples. *)
Definition nuts6 : Result (list SampleRecord) :=
  if (Madapt cfg <? 0)%Z || (M cfg <=? 0)%Z then Err InvalidConfiguration
  else if negb (Nat.eqb (length (gradLogDensity mdl (theta0 cfg))) (length (theta0 cfg)))
  then Err InvalidConfiguration
  else match logDensity mdl (theta0 cfg) with
       | None => Err InvalidConfiguration
       | Some lp0 => Ok (skipn madapt (snd (run lp0 (Z.to_nat (M cfg) + madapt))))
       end.
End Driver.

(** ** Vector lemmas *)

Lemma vadd_length x y : length (vadd x y) = Nat.min (length x) (length y).
Proof.
  revert y; induction x as [|a x IH]; intros [|b y]; simpl; auto.
Qed.

Lemma vscale_length c x : length (vscale c x) = length x.
Proof. apply length_map. Qed.

Lemma vadd_vscale_cancel a g c d :
  (length a <= length g)%nat -> c + d = 0 ->
  vadd (vadd a (vscale c g)) (vscale d g) = a.
Proof.
  revert g; induction a as [|x a IH]; intros [|y g] Hl Hcd; simpl in *; auto.
  - lia.
  - f_equal; [ nra | apply IH; [lia | exact Hcd] ].
Qed.

(** ** The power-law model of [examples/imf_examples.ipynb] *)

Module Notebook.

Inductive PyError := IndexError.

(** The float operations the notebook's functions use: Python's [+], [-],
    [*], [/], unary [-], [**], [np.log], [==], the conversion [float(n)]
    of an [int] (also behind [int * float]), and the literals [1.0] and
    [0]. *)
Class PyFloat (F : Type) := {
  f_add : F -> F -> F;
  f_sub : F -> F -> F;
  f_mul : F -> F -> F;
  f_div : F -> F -> F;
  f_neg : F -> F;
  f_pow : F -> F -> F;
  f_log : F -> F;
  f_eqb : F -> F -> bool;
  f_of_nat : nat -> F;
  f_one : F;
  f_zero : F
}.

(** Exact arithmetic over the reals. *)
#[global] Instance real_arith : PyFloat R := {|
  f_add := Rplus;
  f_sub := Rminus;
  f_mul := Rmult;
  f_div := Rdiv;
  f_neg := Ropp;
  f_pow := Rpower;
  f_log := ln;
  f_eqb := fun x y => if Req_EM_T x y then true else false;
  f_of_nat := INR;
  f_one := 1;
  f_zero := 0
|}.

(** The binary64 double nearest to an integer ([float(z)]). *)
Definition b64_of_Z (z : Z) : spec_float := binary_normalize 53 1024 z 0 false.

(** Python floats: IEEE 754 binary64 ([prec = 53], [emax = 1024]) with
    rounding to nearest even.  [**] and [np.log] are C library functions,
    given as the arguments [pow] and [log]. *)
Definition binary64 (pow : spec_float -> spec_float -> spec_float)
  (log : spec_float -> spec_float) : PyFloat spec_float := {|
  f_add := SFadd 53 1024;
  f_sub := SFsub 53 1024;
  f_mul := SFmul 53 1024;
  f_div := SFdiv 53 1024;
  f_neg := SFopp;
  f_pow := pow;
  f_log := log;
  f_eqb := SFeqb;
  f_of_nat := fun n => b64_of_Z (Z.of_nat n);
  f_one := b64_of_Z 1;
  f_zero := S754_zero false
|}.

Section Py.

Context {F : Type} `{PyFloat F}.

(** The Python heap: the [ndarray] objects alive, by location. *)
Definition Heap := list (list F).

(** Python computations: state passing over the heap, with exceptions. *)
Definition PyM (A : Type) := Heap -> (A + PyError) * Heap.

Definition ret {A} (a : A) : PyM A := fun h => (inl a, h).

Definition bind {A B} (m : PyM A) (f : A -> PyM B) : PyM B :=
  fun h => match m h with
           | (inl a, h') => f a h'
           | (inr e, h') => (inr e, h')
           end.

Local Notation "x <- m ;; k" := (bind m (fun x => k))
  (at level 61, m at next level, right associativity).

(** [arr[i]] for the array at location [loc]. *)
Definition getitem (loc i : nat) : PyM F :=
  fun h => match nth_error h loc with
           | Some arr =>
               match nth_error arr i with
               | Some x => (inl x, h)
               | None => (inr IndexError, h)
               end
           | None => (inr IndexError, h)
           end.

(** [np.array(xs)]: a fresh array object. *)
Definition np_array (xs : list F) : PyM nat :=
  fun h => (inl (length h), h ++ [xs]).

(** [logLikelihood(theta, D, N, M_min, M_max)]; [theta] is the location
    of the parameter array, [N] the number of data points. *)
Definition logLikelihood (theta : nat) (D : F) (N : nat) (M_min M_max : F) : PyM F :=
  alpha <- getitem theta 0 ;;
  let beta := f_sub f_one alpha in
  let c := if f_eqb beta f_zero then f_log (f_div M_max M_min)
           else f_div beta (f_sub (f_pow M_max beta) (f_pow M_min beta)) in
  ret (f_sub (f_mul (f_of_nat N) (f_log c)) (f_mul alpha D)).

(** [grad_logLikelihood(theta, D, N, M_min, M_max)]: returns the location
    of the fresh array [np.array([grad])]. *)
Definition grad_logLikelihood (theta : nat) (D : F) (N : nat) (M_min M_max : F) : PyM nat :=
  alpha <- getitem theta 0 ;;
  let beta := f_sub f_one alpha in
  let logMmin := f_log M_min in
  let logMmax := f_log M_max in
  let grad :=
    if negb (f_eqb beta f_zero) then
      let grad := f_sub (f_mul logMmin (f_pow M_min beta))
                        (f_mul logMmax (f_pow M_max beta)) in
      let grad := f_add f_one (f_div (f_mul grad beta)
                                     (f_sub (f_pow M_max beta) (f_pow M_min beta))) in
      f_sub (f_neg D) (f_div (f_mul (f_of_nat N) grad) beta)
    else f_of_nat N in
  np_array [grad].

End Py.

(** The value returned by [logLikelihood] over the reals for the
    one-entry array [theta = [alpha]] (0 if it raised, which it does not). *)
Definition logLikelihood_at (D : R) (N : nat) (M_min M_max alpha : R) : R :=
  match fst (logLikelihood 0 D N M_min M_max [[alpha]]) with
  | inl v => v
  | inr _ => 0
  end.

End Notebook.

(** ** Reading binary64 values as reals *)

(** The real number a finite [spec_float] denotes (0 for the others). *)
Definition SF2R (x : spec_float) : R :=
  match x with
  | S754_finite s m e => (if s then -1 else 1) * IZR (Zpos m) * powerRZ 2 e
  | _ => 0
  end.

Definition sf_is_finite (x : spec_float) : bool :=
  match x with
  | S754_zero _ | S754_finite _ _ _ => true
  | _ => false
  end.

(** [x] is a double nearest to the real [r]: what a correctly rounded
    library function returns for the exact result [r]. *)
Definition is_nearest (r : R) (x : spec_float) : Prop :=
  sf_is_finite x = true /\ valid_binary 53 1024 x = true /\
  forall y, sf_is_finite y = true -> valid_binary 53 1024 y = true ->
    Rabs (SF2R x - r) <= Rabs (SF2R y - r).

(** [pow] is correctly rounded at [(x, y)]: it returns a double nearest
    to the real power [x ** y]. *)
Definition zero_or_nan (x : spec_float) : bool :=
  match x with
  | S754_zero _ | S754_nan => true
  | _ => false
  end.

Definition pow_rounds_at (pow : spec_float -> spec_float -> spec_float)
  (x y : spec_float) : Prop :=
  is_nearest (Rpower (SF2R x) (SF2R y)) (pow x y).

(** ** Example inputs *)

(** A standard Gaussian target of dimension 1. *)
Definition gaussian : Model :=
  mkModel (fun x => Some (- dot x x / 2)) (fun x => vscale (-1) x).

Definition ex_draws : Draws :=
  mkDraws (fun _ => [1]) (fun _ => 1) (fun _ _ => Plus) (fun _ _ => 1 / 2) [1].

Definition ex_config : Config := mkConfig 3 2 [1] (1 / 2) 10 1000.

Definition ex_bad_config : Config := mkConfig 0 2 [1] (1 / 2) 10 1000.

(** ** Comparison lemmas *)

Lemma Rleb_true x y : Rleb x y = true <-> x <= y.
Proof. unfold Rleb; destruct (Rle_dec x y); split; intros; auto; try discriminate; lra. Qed.

Lemma Rltb_true x y : Rltb x y = true <-> x < y.
Proof. unfold Rltb; destruct (Rlt_dec x y); split; intros; auto; try discriminate; lra. Qed.

Lemma Rleb_false_lt x y : y < x -> Rleb x y = false.
Proof. intros H; unfold Rleb; destruct (Rle_dec x y); [lra | reflexivity]. Qed.

Lemma firstn_length_app {A} (l1 l2 : list A) : firstn (length l1) (l1 ++ l2) = l1.
Proof. rewrite firstn_app, Nat.sub_diag, firstn_all; apply app_nil_r. Qed.

(** ** Driver lemmas *)

Section DriverLemmas.
Variable mdl : Model.
Variable rnd : Draws.
Variable cfg : Config.
Variable lp0 : R.

Lemma run_S n :
  run mdl rnd cfg lp0 (S n) =
  (snd (iteration mdl rnd cfg (S n) (state_after mdl rnd cfg lp0 n)),
   snd (run mdl rnd cfg lp0 n)
     ++ [fst (iteration mdl rnd cfg (S n) (state_after mdl rnd cfg lp0 n))]).
Proof.
  unfold state_after; simpl.
  destruct (run mdl rnd cfg lp0 n) as [s recs]; simpl.
  destruct (iteration mdl rnd cfg (S n) s); reflexivity.
Qed.

Lemma run_length n : length (snd (run mdl rnd cfg lp0 n)) = n.
Proof.
  induction n as [|n IH]; [reflexivity|].
  rewrite run_S; simpl; rewrite length_app, IH; simpl; lia.
Qed.

Lemma state_after_S n :
  state_after mdl rnd cfg lp0 (S n) =
  snd (iteration mdl rnd cfg (S n) (state_after mdl rnd cfg lp0 n)).
Proof. unfold state_after at 1; rewrite run_S; reflexivity. Qed.

(** A post-warm-up iteration keeps the adaptation state and uses the
    step size it leaves behind, frozen on iteration [Madapt + 1]. *)
Lemma iteration_after_warmup t s0 :
  (madapt cfg < t)%nat ->
  adapt (snd (iteration mdl rnd cfg t s0)) = adapt s0 /\
  epsilonUsed (fst (iteration mdl rnd cfg t s0)) = eps (snd (iteration mdl rnd cfg t s0)) /\
  eps (snd (iteration mdl rnd cfg t s0)) =
    (if Nat.eqb t (S (madapt cfg)) then epsilonBar (adapt s0) else eps s0).
Proof.
  intros Ht; unfold iteration.
  replace (Nat.leb t (madapt cfg)) with false by (symmetry; apply Nat.leb_gt; lia).
  destruct (Nat.eqb t (S (madapt cfg))); simpl; auto.
Qed.

(** A warm-up iteration applies [dual_average] to the adaptation state. *)
Lemma iteration_warmup t s0 :
  (t <= madapt cfg)%nat ->
  let tree := draw_tree mdl rnd cfg t s0 in
  let da := dual_average (delta cfg) (adapt s0) t
              (acceptStatSum tree / INR (acceptStatCount tree)) in
  eps (snd (iteration mdl rnd cfg t s0)) = fst da /\
  adapt (snd (iteration mdl rnd cfg t s0)) = snd da.
Proof.
  intros Ht; unfold iteration.
  replace (Nat.eqb t (S (madapt cfg))) with false by (symmetry; apply Nat.eqb_neq; lia).
  replace (Nat.leb t (madapt cfg)) with true by (symmetry; apply Nat.leb_le; lia).
  simpl.
  destruct (dual_average (delta cfg) (adapt s0) t
    (acceptStatSum (draw_tree mdl rnd cfg t s0) / INR (acceptStatCount (draw_tree mdl rnd cfg t s0)))); split; reflexivity.
Qed.

Lemma mu_constant n :
  mu (adapt (state_after mdl rnd cfg lp0 n)) = ln (10 * findReasonableEpsilon mdl rnd cfg).
Proof.
  induction n as [|n IH]; [reflexivity|].
  rewrite state_after_S.
  destruct (Nat.le_gt_cases (S n) (madapt cfg)) as [H|H].
  - destruct (iteration_warmup (S n) (state_after mdl rnd cfg lp0 n) H) as [_ Ha].
    rewrite Ha; exact IH.
  - destruct (iteration_after_warmup (S n) (state_after mdl rnd cfg lp0 n) H) as [Ha _].
    rewrite Ha; exact IH.
Qed.

Lemma epsilonBar_positive n : 0 < epsilonBar (adapt (state_after mdl rnd cfg lp0 n)).
Proof.
  induction n as [|n IH]; [simpl; lra|].
  rewrite state_after_S.
  destruct (Nat.le_gt_cases (S n) (madapt cfg)) as [H|H].
  - destruct (iteration_warmup (S n) (state_after mdl rnd cfg lp0 n) H) as [_ Ha].
    rewrite Ha; apply exp_pos.
  - destruct (iteration_after_warmup (S n) (state_after mdl rnd cfg lp0 n) H) as [Ha _].
    rewrite Ha; exact IH.
Qed.

(** After warm-up the adaptation state never changes, and from
    iteration [Madapt + 1] on the step size is [epsilonBar]. *)
Lemma adapt_frozen n :
  let sA := state_after mdl rnd cfg lp0 (madapt cfg) in
  adapt (state_after mdl rnd cfg lp0 (madapt cfg + n)) = adapt sA /\
  ((0 < n)%nat -> eps (state_after mdl rnd cfg lp0 (madapt cfg + n)) = epsilonBar (adapt sA)).
Proof.
  intros sA; induction n as [|n [IHa IHe]].
  - rewrite Nat.add_0_r; split; [reflexivity | lia].
  - replace (madapt cfg + S n)%nat with (S (madapt cfg + n)) by lia.
    rewrite state_after_S.
    destruct (iteration_after_warmup (S (madapt cfg + n))
                (state_after mdl rnd cfg lp0 (madapt cfg + n)) ltac:(lia)) as [Ha [_ He]].
    split; [rewrite Ha; exact IHa|].
    intros _; rewrite He.
    destruct n as [|n].
    + rewrite Nat.add_0_r in IHa |- *; rewrite Nat.eqb_refl, IHa; reflexivity.
    + replace (Nat.eqb (S (madapt cfg + S n)) (S (madapt cfg))) with false
        by (symmetry; apply Nat.eqb_neq; lia).
      apply IHe; lia.
Qed.

(** Every record after warm-up carries the frozen step size. *)
Lemma post_warmup_records_frozen n :
  Forall (fun r => epsilonUsed r = epsilonBar (adapt (state_after mdl rnd cfg lp0 (madapt cfg))))
    (skipn (madapt cfg) (snd (run mdl rnd cfg lp0 (madapt cfg + n)))).
Proof.
  induction n as [|n IH].
  - rewrite Nat.add_0_r, skipn_all2; [constructor | rewrite run_length; lia].
  - replace (madapt cfg + S n)%nat with (S (madapt cfg + n)) by lia.
    rewrite run_S; simpl snd.
    rewrite skipn_app, run_length.
    replace (madapt cfg - (madapt cfg + n))%nat with 0%nat by lia.
    apply Forall_app; split; [exact IH|].
    constructor; [|constructor].
    destruct (iteration_after_warmup (S (madapt cfg + n))
                (state_after mdl rnd cfg lp0 (madapt cfg + n)) ltac:(lia)) as [_ [Hr _]].
    rewrite Hr, <- state_after_S.
    replace (S (madapt cfg + n)) with (madapt cfg + S n)%nat by lia.
    apply (proj2 (adapt_frozen (S n))); lia.
Qed.
End DriverLemmas.

(** ** Binary64 lemmas *)

Lemma SF2R_neg_exp s m p :
  SF2R (S754_finite s m (Zneg p)) = (if s then -1 else 1) * IZR (Zpos m) / IZR (2 ^ Zpos p).
Proof. unfold SF2R, powerRZ; rewrite pow_IZR, positive_nat_Z; reflexivity. Qed.

Lemma powerRZ_ge_1 (k : Z) : (0 <= k)%Z -> 1 <= powerRZ 2 k.
Proof. intros Hk; destruct k as [|p|p]; simpl; [lra | | lia]. apply pow_R1_Rle; lra. Qed.

(** Every finite nonzero double is at least the least subnormal [2^-1074]
    in magnitude. *)
Lemma finite_ge_min s m e :
  valid_binary 53 1024 (S754_finite s m e) = true ->
  powerRZ 2 (-1074) <= Rabs (SF2R (S754_finite s m e)).
Proof.
  intros Hv; simpl in Hv; unfold bounded, canonical_mantissa, fexp, emin in Hv.
  apply andb_prop in Hv as [Hc _]; apply Z.eqb_eq in Hc.
  assert (He : (-1074 <= e)%Z) by lia.
  assert (Hs : Rabs (if s then -1 else 1) = 1)
    by (destruct s; unfold Rabs; destruct (Rcase_abs _); lra).
  assert (Hm : 1 <= IZR (Zpos m)) by (apply IZR_le; lia).
  assert (Hp : powerRZ 2 e = powerRZ 2 (-1074) * powerRZ 2 (e + 1074)).
  { rewrite <- powerRZ_add by lra; f_equal; lia. }
  assert (H0 : 0 < powerRZ 2 (-1074)) by (apply powerRZ_lt; lra).
  assert (H1 : 1 <= powerRZ 2 (e + 1074)) by (apply powerRZ_ge_1; lia).
  unfold SF2R; rewrite !Rabs_mult, Hs.
  rewrite (Rabs_pos_eq (IZR (Zpos m))) by lra.
  rewrite Rabs_pos_eq by (apply Rlt_le, powerRZ_lt; lra).
  rewrite Hp.
  set (P := powerRZ 2 (-1074)) in *; set (Q := powerRZ 2 (e + 1074)) in *.
  assert (HPQ : P <= P * Q) by nra.
  assert (HmPQ : P * Q <= IZR (Zpos m) * (P * Q)) by nra.
  lra.
Qed.

(** A positive real below half the least subnormal rounds to a zero. *)
Lemma tiny_nearest_zero r x :
  0 < r -> 2 * r < powerRZ 2 (-1074) -> is_nearest r x -> exists s, x = S754_zero s.
Proof.
  intros Hr Hsmall [Hf [Hv Hn]].
  destruct x as [s|s| |s m e]; try discriminate; [exists s; reflexivity|].
  specialize (Hn (S754_zero false) eq_refl eq_refl).
  pose proof (finite_ge_min s m e Hv) as Hmin.
  pose proof (Rabs_triang_inv (SF2R (S754_finite s m e)) r) as Ht.
  change (SF2R (S754_zero false)) with 0 in Hn.
  rewrite Rminus_0_l, Rabs_Ropp, (Rabs_pos_eq r) in Hn by lra.
  rewrite (Rabs_pos_eq r) in Ht by lra; lra.
Qed.

Lemma zero_nearest r :
  0 < r -> 2 * r < powerRZ 2 (-1074) -> is_nearest r (S754_zero false).
Proof.
  intros Hr Hsmall; split; [reflexivity|]; split; [reflexivity|].
  intros y Hf Hv; change (SF2R (S754_zero false)) with 0.
  rewrite Rminus_0_l, Rabs_Ropp, (Rabs_pos_eq r) by lra.
  destruct y as [s|s| |s m e]; try discriminate.
  - change (SF2R (S754_zero s)) with 0.
    rewrite Rminus_0_l, Rabs_Ropp, (Rabs_pos_eq r); lra.
  - pose proof (finite_ge_min s m e Hv) as Hmin.
    pose proof (Rabs_triang_inv (SF2R (S754_finite s m e)) r) as Ht.
    rewrite (Rabs_pos_eq r) in Ht by lra; lra.
Qed.

Lemma SF2R_b64_2 : SF2R (Notebook.b64_of_Z 2) = 2.
Proof.
  vm_compute Notebook.b64_of_Z; rewrite SF2R_neg_exp; vm_compute Z.pow.
  apply Rmult_eq_reg_r with (IZR 2251799813685248); [|apply not_0_IZR; discriminate].
  unfold Rdiv; rewrite Rmult_assoc, Rinv_l, Rmult_1_r by (apply not_0_IZR; discriminate).
  rewrite <- !mult_IZR; reflexivity.
Qed.

Lemma SF2R_b64_3 : SF2R (Notebook.b64_of_Z 3) = 3.
Proof.
  vm_compute Notebook.b64_of_Z; rewrite SF2R_neg_exp; vm_compute Z.pow.
  apply Rmult_eq_reg_r with (IZR 2251799813685248); [|apply not_0_IZR; discriminate].
  unfold Rdiv; rewrite Rmult_assoc, Rinv_l, Rmult_1_r by (apply not_0_IZR; discriminate).
  rewrite <- !mult_IZR; reflexivity.
Qed.

Lemma SF2R_b64_m2000 : SF2R (Notebook.b64_of_Z (-2000)) = -2000.
Proof.
  vm_compute Notebook.b64_of_Z; rewrite SF2R_neg_exp; vm_compute Z.pow.
  apply Rmult_eq_reg_r with (IZR 4398046511104); [|apply not_0_IZR; discriminate].
  unfold Rdiv; rewrite Rmult_assoc, Rinv_l, Rmult_1_r by (apply not_0_IZR; discriminate).
  rewrite <- !mult_IZR; reflexivity.
Qed.

Lemma m2000_eq_opp_INR : -2000 = - INR 2000.
Proof. rewrite INR_IZR_INZ; change (Z.of_nat 2000) with 2000%Z; lra. Qed.

Lemma Rpower_m2000 (b : Z) :
  (0 < b)%Z -> Rpower (IZR b) (- INR 2000) = / IZR (b ^ Z.of_nat 2000).
Proof.
  intros Hb; rewrite Rpower_Ropp, Rpower_pow, pow_IZR by (apply IZR_lt; exact Hb).
  reflexivity.
Qed.

Lemma powerRZ_m1074 : powerRZ 2 (-1074) = / IZR (2 ^ 1074).
Proof. unfold powerRZ; rewrite pow_IZR, positive_nat_Z; reflexivity. Qed.

Lemma Rinv_half_lt (A B : R) : 0 < A -> 0 < B -> 2 * B < A -> 0 < / A /\ 2 * / A < / B.
Proof.
  intros HA HB Hlt; split; [apply Rinv_0_lt_compat; exact HA|].
  replace (2 * / A) with (/ (A / 2)) by (field; lra).
  apply Rinv_lt_contravar; [nra | lra].
Qed.

(** [b ** -2000] lies below half the least subnormal once [b^2000] exceeds
    [2^1075]. *)
Lemma power_m2000_tiny (b : Z) :
  (0 < b)%Z -> (2 * 2 ^ 1074 < b ^ Z.of_nat 2000)%Z ->
  0 < Rpower (IZR b) (-2000) /\ 2 * Rpower (IZR b) (-2000) < powerRZ 2 (-1074).
Proof.
  intros Hb Hlt.
  rewrite m2000_eq_opp_INR, Rpower_m2000, powerRZ_m1074 by exact Hb.
  apply Rinv_half_lt.
  - apply IZR_lt, Z.pow_pos_nonneg; [exact Hb | apply Nat2Z.is_nonneg].
  - apply IZR_lt, Z.pow_pos_nonneg; [reflexivity | intro E; discriminate E].
  - rewrite <- mult_IZR; apply IZR_lt; exact Hlt.
Qed.

Lemma pow3_m2000_tiny :
  0 < Rpower 3 (-2000) /\ 2 * Rpower 3 (-2000) < powerRZ 2 (-1074).
Proof. apply (power_m2000_tiny 3); [reflexivity | vm_compute; reflexivity]. Qed.

Lemma pow2_m2000_tiny :
  0 < Rpower 2 (-2000) /\ 2 * Rpower 2 (-2000) < powerRZ 2 (-1074).
Proof. apply (power_m2000_tiny 2); [reflexivity | vm_compute; reflexivity]. Qed.

Lemma SFmul_zero_r_zero_or_nan x s :
  zero_or_nan (SFmul 53 1024 x (S754_zero s)) = true.
Proof. destruct x as [[]|[]| |[] ? ?]; reflexivity. Qed.

Lemma SFsub_zero_or_nan x y :
  zero_or_nan x = true -> zero_or_nan y = true -> zero_or_nan (SFsub 53 1024 x y) = true.
Proof.
  destruct x as [[]|[]| |[] ? ?], y as [[]|[]| |[] ? ?]; try discriminate; reflexivity.
Qed.

(** [1.0 - 2001.0] is [-2000.0] exactly. *)
Lemma b64_beta_2001 :
  SFsub 53 1024 (Notebook.b64_of_Z 1) (Notebook.b64_of_Z 2001) = Notebook.b64_of_Z (-2000).
Proof. vm_compute; reflexivity. Qed.

(** A correctly rounded [pow] underflows to a zero at [(3.0, -2000.0)] and
    [(2.0, -2000.0)]. *)
Lemma pow_underflow_zero (pow : spec_float -> spec_float -> spec_float) (b : Z) :
  SF2R (Notebook.b64_of_Z b) = IZR b ->
  0 < Rpower (IZR b) (-2000) /\ 2 * Rpower (IZR b) (-2000) < powerRZ 2 (-1074) ->
  pow_rounds_at pow (Notebook.b64_of_Z b) (Notebook.b64_of_Z (-2000)) ->
  exists s, pow (Notebook.b64_of_Z b) (Notebook.b64_of_Z (-2000)) = S754_zero s.
Proof.
  unfold pow_rounds_at; intros Eb [H0 H1] Hn.
  rewrite Eb, SF2R_b64_m2000 in Hn.
  exact (tiny_nearest_zero _ _ H0 H1 Hn).
Qed.

(** ** Claims *)

(** C6: the leapfrog integrator is reversible: stepping with [epsilon] and
    then with [-epsilon] from the intermediate state returns the original
    (position, momentum) pair exactly (real arithmetic), for phase states of
    dimension D and a gradient that preserves the dimension. *)
Theorem leapfrog_reversible (grad : vec -> vec) (s : PhaseState) (epsilon : R)
  (Hdim : length (momentum s) = length (position s))
  (Hgrad : forall x, length (grad x) = length x) :
  leapfrog grad (leapfrog grad s epsilon) (- epsilon) = s.
Proof.
  destruct s as [q r]; simpl in *.
  unfold leapfrog; simpl.
  set (rh := vadd r (vscale (epsilon / 2) (grad q))).
  assert (Hrh : length rh = length q).
  { unfold rh; rewrite vadd_length, vscale_length, Hgrad, Hdim; lia. }
  set (qn := vadd q (vscale epsilon rh)).
  assert (Hqn : length qn = length q).
  { unfold qn; rewrite vadd_length, vscale_length, Hrh; lia. }
  assert (E1 : vadd (vadd rh (vscale (epsilon / 2) (grad qn)))
                    (vscale (- epsilon / 2) (grad qn)) = rh).
  { apply vadd_vscale_cancel; [rewrite Hgrad, Hqn, Hrh; lia | lra]. }
  rewrite E1.
  assert (E2 : vadd qn (vscale (- epsilon) rh) = q).
  { apply vadd_vscale_cancel; [rewrite Hrh; lia | lra]. }
  rewrite E2.
  assert (E3 : vadd rh (vscale (- epsilon / 2) (grad q)) = r).
  { apply vadd_vscale_cancel; [rewrite Hgrad, Hdim; lia | lra]. }
  rewrite E3; reflexivity.
Qed.

Lemma leapfrog_reversible_witness :
  length [0] = length [1] /\
  (forall x, length (vscale (-1) x) = length x) /\
  leapfrog (vscale (-1)) (leapfrog (vscale (-1)) (mkPhase [1] [0]) (1 / 10)) (- (1 / 10))
  = mkPhase [1] [0].
Proof.
  assert (Hd : length (momentum (mkPhase [1] [0])) = length (position (mkPhase [1] [0])))
    by reflexivity.
  split; [reflexivity | split; [apply vscale_length|]].
  exact (leapfrog_reversible (vscale (-1)) (mkPhase [1] [0]) (1 / 10) Hd (vscale_length (-1))).
Defined.

(** C1: for a valid configuration ([M > 0], [Madapt >= 0], gradient of
    the dimension of [theta0], finite initial log-density), [nuts6] runs
    [M + Madapt] iterations and returns the records of iterations
    [Madapt + 1 .. M + Madapt], in order: exactly [M] records. *)
Theorem nuts6_returns_post_warmup (mdl : Model) (rnd : Draws) (cfg : Config) (lp0 : R)
  (HM : (0 < M cfg)%Z) (HMa : (0 <= Madapt cfg)%Z)
  (Hdim : length (gradLogDensity mdl (theta0 cfg)) = length (theta0 cfg))
  (Hlp : logDensity mdl (theta0 cfg) = Some lp0) :
  let chain := snd (run mdl rnd cfg lp0 (Z.to_nat (M cfg) + Z.to_nat (Madapt cfg))) in
  length chain = (Z.to_nat (M cfg) + Z.to_nat (Madapt cfg))%nat /\
  nuts6 mdl rnd cfg = Ok (skipn (Z.to_nat (Madapt cfg)) chain) /\
  length (skipn (Z.to_nat (Madapt cfg)) chain) = Z.to_nat (M cfg).
Proof.
  intros chain.
  assert (Hlen : length chain = (Z.to_nat (M cfg) + Z.to_nat (Madapt cfg))%nat)
    by apply run_length.
  split; [exact Hlen | split].
  - unfold nuts6.
    destruct (Z.ltb_spec (Madapt cfg) 0); [lia|].
    destruct (Z.leb_spec (M cfg) 0); [lia|].
    rewrite Hdim, Nat.eqb_refl, Hlp; reflexivity.
  - rewrite length_skipn, Hlen; lia.
Qed.

Lemma nuts6_returns_post_warmup_witness :
  exists recs, nuts6 gaussian ex_draws ex_config = Ok recs /\ length recs = 3%nat.
Proof.
  destruct (nuts6_returns_post_warmup gaussian ex_draws ex_config (- dot [1] [1] / 2)
              ltac:(simpl; lia) ltac:(simpl; lia) eq_refl eq_refl) as [_ [H1 H2]].
  exists (skipn (Z.to_nat (Madapt ex_config))
            (snd (run gaussian ex_draws ex_config (- dot [1] [1] / 2)
                    (Z.to_nat (M ex_config) + Z.to_nat (Madapt ex_config))))).
  split; [exact H1 | exact H2].
Defined.

(** C4: each warm-up iteration [t] (1 <= t <= Madapt) updates the
    dual-averaging state by
    [H_bar_t = (1 - 1/(t+10)) H_bar_{t-1} + 1/(t+10) (delta - alpha_bar_t)],
    [log eps_t = mu - sqrt t / 0.05 * H_bar_t],
    [log epsbar_t = t^(-0.75) log eps_t + (1 - t^(-0.75)) log epsbar_{t-1}],
    with [mu = log(10 * eps_initial)] and [alpha_bar_t] the iteration's
    [acceptStatSum / acceptStatCount]; after warm-up the adaptation state
    is never updated. *)
Theorem dual_averaging_update (mdl : Model) (rnd : Draws) (cfg : Config) (lp0 : R)
  (t' : nat) (Ht : (S t' <= madapt cfg)%nat) :
  let prev := state_after mdl rnd cfg lp0 t' in
  let cur := state_after mdl rnd cfg lp0 (S t') in
  let tree := draw_tree mdl rnd cfg (S t') prev in
  let alpha_bar := acceptStatSum tree / INR (acceptStatCount tree) in
  let t := INR (S t') in
  hBar (adapt cur) = (1 - 1 / (t + 10)) * hBar (adapt prev) + 1 / (t + 10) * (delta cfg - alpha_bar) /\
  ln (eps cur) = mu (adapt cur) - sqrt t / (1 / 20) * hBar (adapt cur) /\
  ln (epsilonBar (adapt cur)) =
    Rpower t (- (3 / 4)) * ln (eps cur) + (1 - Rpower t (- (3 / 4))) * ln (epsilonBar (adapt prev)) /\
  mu (adapt cur) = ln (10 * findReasonableEpsilon mdl rnd cfg) /\
  (forall n, adapt (state_after mdl rnd cfg lp0 (madapt cfg + n)) =
             adapt (state_after mdl rnd cfg lp0 (madapt cfg))).
Proof.
  intros prev cur tree alpha_bar t.
  destruct (iteration_warmup mdl rnd cfg (S t') prev Ht) as [He Ha].
  assert (Hcur : cur = snd (iteration mdl rnd cfg (S t') prev)) by apply state_after_S.
  split; [|split; [|split; [|split]]].
  - rewrite Hcur, Ha; reflexivity.
  - rewrite Hcur, He, Ha; simpl; rewrite ln_exp; reflexivity.
  - rewrite Hcur, He, Ha; simpl; rewrite !ln_exp; reflexivity.
  - apply mu_constant.
  - intros n; apply (proj1 (adapt_frozen mdl rnd cfg lp0 n)).
Qed.

Lemma dual_averaging_update_witness :
  (S 0 <= madapt ex_config)%nat /\
  let prev := state_after gaussian ex_draws ex_config (-1 / 2) 0 in
  let cur := state_after gaussian ex_draws ex_config (-1 / 2) 1 in
  let tree := draw_tree gaussian ex_draws ex_config 1 prev in
  let alpha_bar := acceptStatSum tree / INR (acceptStatCount tree) in
  hBar (adapt cur) = (1 - 1 / (INR 1 + 10)) * hBar (adapt prev)
                     + 1 / (INR 1 + 10) * (delta ex_config - alpha_bar).
Proof.
  split; [vm_compute; lia|].
  exact (proj1 (dual_averaging_update gaussian ex_draws ex_config (-1 / 2) 0
                  ltac:(vm_compute; lia))).
Defined.

(** C5: after warm-up the step size is frozen: every record of the
    post-warm-up chain returned by [nuts6] was drawn with the same positive
    step size [epsilonBar] reached at the end of warm-up, and the
    adaptation state is never changed again. *)
Theorem step_size_frozen_after_warmup (mdl : Model) (rnd : Draws) (cfg : Config) (lp0 : R)
  (Hlp : logDensity mdl (theta0 cfg) = Some lp0) :
  let eb := epsilonBar (adapt (state_after mdl rnd cfg lp0 (madapt cfg))) in
  0 < eb /\
  (forall recs, nuts6 mdl rnd cfg = Ok recs -> Forall (fun r => epsilonUsed r = eb) recs) /\
  (forall n, adapt (state_after mdl rnd cfg lp0 (madapt cfg + n)) =
             adapt (state_after mdl rnd cfg lp0 (madapt cfg))) /\
  (forall n, (0 < n)%nat -> eps (state_after mdl rnd cfg lp0 (madapt cfg + n)) = eb).
Proof.
  intros eb.
  split; [apply epsilonBar_positive|split; [|split]].
  - intros recs Hr; unfold nuts6 in Hr.
    destruct ((Madapt cfg <? 0)%Z || (M cfg <=? 0)%Z); [discriminate|].
    destruct (negb _); [discriminate|].
    rewrite Hlp in Hr; injection Hr as <-.
    rewrite Nat.add_comm; apply post_warmup_records_frozen.
  - intros n; apply (proj1 (adapt_frozen mdl rnd cfg lp0 n)).
  - intros n Hn; apply (proj2 (adapt_frozen mdl rnd cfg lp0 n) Hn).
Qed.

Lemma step_size_frozen_after_warmup_witness :
  logDensity gaussian (theta0 ex_config) = Some (-1 / 2) /\
  0 < epsilonBar (adapt (state_after gaussian ex_draws ex_config (-1 / 2) (madapt ex_config))).
Proof.
  assert (H : logDensity gaussian (theta0 ex_config) = Some (-1 / 2))
    by (simpl; f_equal; lra).
  split; [exact H|].
  exact (proj1 (step_size_frozen_after_warmup gaussian ex_draws ex_config (-1 / 2) H)).
Defined.

(** C7: a configuration with [Madapt < 0], [M <= 0], a gradient whose
    dimension differs from [theta0]'s, or a non-finite initial log-density
    makes [nuts6] report [InvalidConfiguration], with no chain. *)
Theorem nuts6_invalid_configuration (mdl : Model) (rnd : Draws) (cfg : Config)
  (Hbad : (Madapt cfg < 0)%Z \/ (M cfg <= 0)%Z
          \/ length (gradLogDensity mdl (theta0 cfg)) <> length (theta0 cfg)
          \/ logDensity mdl (theta0 cfg) = None) :
  nuts6 mdl rnd cfg = Err InvalidConfiguration.
Proof.
  unfold nuts6.
  destruct (Z.ltb_spec (Madapt cfg) 0); [reflexivity|].
  destruct (Z.leb_spec (M cfg) 0); [reflexivity|].
  simpl.
  destruct (Nat.eqb_spec (length (gradLogDensity mdl (theta0 cfg))) (length (theta0 cfg)));
    [|reflexivity].
  simpl.
  destruct (logDensity mdl (theta0 cfg)) eqn:E; [|reflexivity].
  exfalso; destruct Hbad as [Hb|[Hb|[Hb|Hb]]]; [lia | lia | contradiction | discriminate].
Qed.

Lemma nuts6_invalid_configuration_witness :
  (M ex_bad_config <= 0)%Z /\
  nuts6 gaussian ex_draws ex_bad_config = Err InvalidConfiguration.
Proof.
  assert (H : (M ex_bad_config <= 0)%Z) by (simpl; lia).
  split; [exact H|].
  apply nuts6_invalid_configuration; right; left; exact H.
Defined.

(** C2: in the base case (depth 0) of the tree builder, with [s'] the
    state after one leapfrog step of size [direction * epsilon] and
    [joint = logDensity(position s') - dot(momentum s', momentum s') / 2],
    the new state counts ([n = 1]) iff [log slice_u <= joint] and
    [joint - joint0 > -DivergenceThreshold]; otherwise [n = 0]. *)
Theorem buildTree_base_validity (mdl : Model) (thr : R) (coin : nat -> R)
  (state : PhaseState) (slice_u : R) (dir : Direction) (epsilon joint0 : R) (k : nat) :
  let s' := leapfrog (gradLogDensity mdl) state (dsign dir * epsilon) in
  let n := size (fst (buildTree mdl thr coin state slice_u dir 0 epsilon joint0 k)) in
  let valid := exists lp, logDensity mdl (position s') = Some lp /\
                 ln slice_u <= lp - dot (momentum s') (momentum s') / 2 /\
                 lp - dot (momentum s') (momentum s') / 2 - joint0 > - thr in
  (n = 1%nat <-> valid) /\ (n = 0%nat <-> ~ valid).
Proof.
  intros s' n valid.
  change (fst (buildTree mdl thr coin state slice_u dir 0 epsilon joint0 k))
    with (base_node mdl thr s' (ln slice_u) joint0) in n.
  unfold n, valid; clearbody s'; unfold base_node.
  destruct (logDensity mdl (position s')) as [lp|] eqn:E.
  - simpl size.
    destruct (Rleb (ln slice_u) (lp - dot (momentum s') (momentum s') / 2)) eqn:E1;
      destruct (Rltb (- thr) (lp - dot (momentum s') (momentum s') / 2 - joint0)) eqn:E2;
      simpl.
    all: pose proof (proj1 (Rleb_true (ln slice_u) (lp - dot (momentum s') (momentum s') / 2))) as T1.
    all: pose proof (proj1 (Rltb_true (- thr) (lp - dot (momentum s') (momentum s') / 2 - joint0))) as T2.
    all: pose proof (proj2 (Rleb_true (ln slice_u) (lp - dot (momentum s') (momentum s') / 2))) as F1.
    all: pose proof (proj2 (Rltb_true (- thr) (lp - dot (momentum s') (momentum s') / 2 - joint0))) as F2.
    + split; split; intros H; try discriminate.
      * exists lp; split; [reflexivity|]; split; [apply T1, E1 | apply Rlt_gt, T2, E2].
      * reflexivity.
      * exfalso; apply H; exists lp; split; [reflexivity|];
          split; [apply T1, E1 | apply Rlt_gt, T2, E2].
    + split; split; intros H; try discriminate.
      * destruct H as [lp' [Hl [_ H2]]]; injection Hl as <-.
        rewrite (F2 H2) in E2; discriminate.
      * intros [lp' [Hl [_ H2]]]; injection Hl as <-.
        rewrite (F2 H2) in E2; discriminate.
      * reflexivity.
    + split; split; intros H; try discriminate.
      * destruct H as [lp' [Hl [H1 _]]]; injection Hl as <-.
        rewrite (F1 H1) in E1; discriminate.
      * intros [lp' [Hl [H1 _]]]; injection Hl as <-.
        rewrite (F1 H1) in E1; discriminate.
      * reflexivity.
    + split; split; intros H; try discriminate.
      * destruct H as [lp' [Hl [H1 _]]]; injection Hl as <-.
        rewrite (F1 H1) in E1; discriminate.
      * intros [lp' [Hl [H1 _]]]; injection Hl as <-.
        rewrite (F1 H1) in E1; discriminate.
      * reflexivity.
  - simpl size; split; split; intros H; try discriminate.
    + destruct H as [lp [Hl _]]; discriminate.
    + intros [lp [Hl _]]; discriminate.
    + reflexivity.
Qed.

(** C3: in the recursive case the combined continuation flag is the
    conjunction of the two halves' flags and of the no-U-turn criterion on
    the combined tree's outermost endpoints (the second half is built only
    when the first continues); in particular it is false as soon as
    [dot(rightmost.position - leftmost.position, leftmost.momentum) < 0] or
    [dot(rightmost.position - leftmost.position, rightmost.momentum) < 0]. *)
Theorem buildTree_recursive_continuation (mdl : Model) (thr : R) (coin : nat -> R)
  (state : PhaseState) (slice_u : R) (dir : Direction) (d : nat) (epsilon joint0 : R) (k : nat) :
  let r1 := buildTree mdl thr coin state slice_u dir d epsilon joint0 k in
  let t1 := fst r1 in
  let t2 := fst (buildTree mdl thr coin (farEnd dir t1) slice_u dir d epsilon joint0 (snd r1)) in
  let t := fst (buildTree mdl thr coin state slice_u dir (S d) epsilon joint0 k) in
  let lm := leftmost t in
  let rm := rightmost t in
  (continueFlag t1 = false -> continueFlag t = false) /\
  (continueFlag t1 = true ->
     continueFlag t = continueFlag t1 && continueFlag t2 && noUTurn lm rm /\
     lm = match dir with Minus => leftmost t2 | Plus => leftmost t1 end /\
     rm = match dir with Minus => rightmost t1 | Plus => rightmost t2 end) /\
  (dot (vsub (position rm) (position lm)) (momentum lm) < 0 \/
   dot (vsub (position rm) (position lm)) (momentum rm) < 0 ->
   continueFlag t = false).
Proof.
  intros r1 t1 t2 t lm rm.
  assert (Et : t = if continueFlag t1 then combine dir t1 t2 (coin (snd (buildTree mdl thr coin (farEnd dir t1) slice_u dir d epsilon joint0 (snd r1)))) else t1).
  { unfold t, t2, t1, r1; cbn [buildTree].
    destruct (buildTree mdl thr coin state slice_u dir d epsilon joint0 k) as [a ka]; simpl.
    destruct (continueFlag a); [|reflexivity].
    destruct (buildTree mdl thr coin (farEnd dir a) slice_u dir d epsilon joint0 ka); reflexivity. }
  split; [|split].
  - intros H; rewrite Et, H; exact H.
  - intros H; unfold lm, rm; rewrite Et, H; simpl; rewrite H.
    split; [reflexivity | split; reflexivity].
  - intros Hu.
    destruct (continueFlag t1) eqn:H1.
    + unfold lm, rm in Hu |- *; rewrite Et in Hu |- *.
      unfold combine in Hu |- *; cbn -[noUTurn vsub dot Rleb] in Hu |- *.
      unfold noUTurn.
      destruct Hu as [Hu|Hu]; rewrite H1, (Rleb_false_lt _ _ Hu);
        destruct (continueFlag t2); simpl; auto using andb_false_r.
    + rewrite Et; exact H1.
Qed.

(** C8: [logLikelihood] and [grad_logLikelihood] are deterministic and do
    not mutate their inputs or any other state, for any float arithmetic:
    two calls with identical arguments (the same contents of [theta],
    wherever it lives and whatever else the heap holds) give identical
    results; [logLikelihood] leaves the heap as it was, and
    [grad_logLikelihood] only appends its fresh result array, with the
    same contents in both calls, or raises the same exception with the
    heap unchanged. *)
Theorem model_functions_pure {F : Type} `{Notebook.PyFloat F}
  (theta1 theta2 : nat) (D : F) (N : nat) (M_min M_max : F)
  (h1 h2 : @Notebook.Heap F)
  (Hsame : nth_error h1 theta1 = nth_error h2 theta2) :
  (fst (Notebook.logLikelihood theta1 D N M_min M_max h1) =
   fst (Notebook.logLikelihood theta2 D N M_min M_max h2) /\
   snd (Notebook.logLikelihood theta1 D N M_min M_max h1) = h1 /\
   snd (Notebook.logLikelihood theta2 D N M_min M_max h2) = h2) /\
  ((exists out : list F,
      Notebook.grad_logLikelihood theta1 D N M_min M_max h1 = (inl (length h1), h1 ++ [out]) /\
      Notebook.grad_logLikelihood theta2 D N M_min M_max h2 = (inl (length h2), h2 ++ [out])) \/
   (exists e : Notebook.PyError,
      Notebook.grad_logLikelihood theta1 D N M_min M_max h1 = (inr e, h1) /\
      Notebook.grad_logLikelihood theta2 D N M_min M_max h2 = (inr e, h2))).
Proof.
  unfold Notebook.logLikelihood, Notebook.grad_logLikelihood,
    Notebook.bind, Notebook.getitem, Notebook.ret, Notebook.np_array.
  rewrite Hsame.
  destruct (nth_error h2 theta2) as [[|alpha rest]|]; simpl.
  - split; [repeat split | right; eexists; split; reflexivity].
  - split; [repeat split | left; eexists; split; reflexivity].
  - split; [repeat split | right; eexists; split; reflexivity].
Qed.

Lemma model_functions_pure_witness :
  nth_error [[2]] 0 = nth_error [[5]; [2]] 1 /\
  fst (Notebook.logLikelihood 0 0 1 1 100 [[2]]) =
  fst (Notebook.logLikelihood 1 0 1 1 100 [[5]; [2]]).
Proof.
  split; [reflexivity|].
  exact (proj1 (proj1 (model_functions_pure 0 1 0 1 1 100 [[2]] [[5]; [2]] eq_refl))).
Defined.

(** C9 (code bug): the [beta == 0] test does not keep the divisor
    [M_max ** beta - M_min ** beta] away from zero.  With binary64 floats
    and a correctly rounded [**], [theta = [2001.0]], [M_min = 2.0] and
    [M_max = 3.0] give [beta = -2000.0 != 0], both powers underflow to
    zero, and the divisor compares equal to [0.0]: [logLikelihood] divides
    [beta] by zero (an infinite [c]) and [grad_logLikelihood] computes
    [0/0] and returns [[nan]], whatever [np.log] returns. *)
Theorem powerlaw_divisor_underflows (pow : spec_float -> spec_float -> spec_float)
  (log : spec_float -> spec_float)
  (Hpow3 : pow_rounds_at pow (Notebook.b64_of_Z 3) (Notebook.b64_of_Z (-2000)))
  (Hpow2 : pow_rounds_at pow (Notebook.b64_of_Z 2) (Notebook.b64_of_Z (-2000))) :
  let F64 := Notebook.binary64 pow log in
  let alpha := Notebook.b64_of_Z 2001 in
  let D := Notebook.b64_of_Z 0 in
  let M_min := Notebook.b64_of_Z 2 in
  let M_max := Notebook.b64_of_Z 3 in
  let beta := SFsub 53 1024 (Notebook.b64_of_Z 1) alpha in
  let divisor := SFsub 53 1024 (pow M_max beta) (pow M_min beta) in
  SFeqb beta (S754_zero false) = false /\
  SFeqb divisor (S754_zero false) = true /\
  (exists s, SFdiv 53 1024 beta divisor = S754_infinity s /\
     fst (@Notebook.logLikelihood _ F64 0 D 1 M_min M_max [[alpha]]) =
     inl (SFsub 53 1024 (SFmul 53 1024 (Notebook.b64_of_Z 1) (log (S754_infinity s)))
                        (SFmul 53 1024 alpha D))) /\
  @Notebook.grad_logLikelihood _ F64 0 D 1 M_min M_max [[alpha]] =
  (inl 1%nat, [[alpha]; [S754_nan]]).
Proof.
  destruct (pow_underflow_zero pow 3 SF2R_b64_3 pow3_m2000_tiny Hpow3) as [s3 E3].
  destruct (pow_underflow_zero pow 2 SF2R_b64_2 pow2_m2000_tiny Hpow2) as [s2 E2].
  cbv zeta; rewrite b64_beta_2001.
  unfold Notebook.logLikelihood, Notebook.grad_logLikelihood, Notebook.bind,
    Notebook.getitem, Notebook.ret, Notebook.np_array.
  cbn -[Notebook.b64_of_Z SFsub SFmul SFdiv SFadd SFeqb SFopp].
  rewrite b64_beta_2001, E3, E2.
  pose proof (SFsub_zero_or_nan _ _
    (SFmul_zero_r_zero_or_nan (log (Notebook.b64_of_Z 2)) s2)
    (SFmul_zero_r_zero_or_nan (log (Notebook.b64_of_Z 3)) s3)) as Hg.
  revert Hg.
  generalize (SFsub 53 1024 (SFmul 53 1024 (log (Notebook.b64_of_Z 2)) (S754_zero s2))
                            (SFmul 53 1024 (log (Notebook.b64_of_Z 3)) (S754_zero s3))).
  intros g Hg.
  destruct s2, s3; (split; [vm_compute; reflexivity|]);
    (split; [vm_compute; reflexivity|]);
    (split; [eexists; split; [vm_compute; reflexivity | reflexivity]|]);
    destruct g as [[]|[]| |[] ? ?]; try discriminate Hg; vm_compute; reflexivity.
Qed.

Lemma powerlaw_divisor_underflows_witness :
  pow_rounds_at (fun _ _ => S754_zero false) (Notebook.b64_of_Z 3) (Notebook.b64_of_Z (-2000)) /\
  pow_rounds_at (fun _ _ => S754_zero false) (Notebook.b64_of_Z 2) (Notebook.b64_of_Z (-2000)) /\
  @Notebook.grad_logLikelihood _ (Notebook.binary64 (fun _ _ => S754_zero false) (fun _ => S754_nan))
    0 (Notebook.b64_of_Z 0) 1 (Notebook.b64_of_Z 2) (Notebook.b64_of_Z 3) [[Notebook.b64_of_Z 2001]] =
  (inl 1%nat, [[Notebook.b64_of_Z 2001]; [S754_nan]]).
Proof.
  assert (H3 : pow_rounds_at (fun _ _ => S754_zero false) (Notebook.b64_of_Z 3) (Notebook.b64_of_Z (-2000))).
  { unfold pow_rounds_at; rewrite SF2R_b64_3, SF2R_b64_m2000.
    destruct pow3_m2000_tiny as [H0 H1]; exact (zero_nearest _ H0 H1). }
  assert (H2 : pow_rounds_at (fun _ _ => S754_zero false) (Notebook.b64_of_Z 2) (Notebook.b64_of_Z (-2000))).
  { unfold pow_rounds_at; rewrite SF2R_b64_2, SF2R_b64_m2000.
    destruct pow2_m2000_tiny as [H0 H1]; exact (zero_nearest _ H0 H1). }
  split; [exact H3|]; split; [exact H2|].
  exact (proj2 (proj2 (proj2 (powerlaw_divisor_underflows _ (fun _ => S754_nan) H3 H2)))).
Defined.

(** C10 (counterexample): for an empty [theta], [grad_logLikelihood]
    raises [IndexError] at [theta[0]] instead of returning a vector of
    length 1. *)
Lemma grad_logLikelihood_empty_theta :
  fst (Notebook.grad_logLikelihood 0 0 1 1 100 [[]]) = inr Notebook.IndexError.
Proof. reflexivity. Qed.

(** C10 (amended): [grad_logLikelihood] reads [theta[0]] and nothing else
    of [theta], for any float arithmetic: for an empty [theta] it raises
    [IndexError] at [theta[0]]; for a non-empty [theta] it returns a fresh
    array of length exactly 1 whose entry depends only on
    [alpha = theta[0]], and which is [float(N)] when [beta = 1 - alpha]
    compares equal to [0]. *)
Theorem grad_logLikelihood_reads_theta0 {F : Type} `{Notebook.PyFloat F}
  (theta : nat) (D : F) (N : nat) (M_min M_max : F) (h : @Notebook.Heap F) :
  (nth_error h theta = Some [] ->
   Notebook.grad_logLikelihood theta D N M_min M_max h = (inr Notebook.IndexError, h)) /\
  (forall alpha rest, nth_error h theta = Some (alpha :: rest) ->
   exists g,
    Notebook.grad_logLikelihood theta D N M_min M_max h = (inl (length h), h ++ [[g]]) /\
    (Notebook.f_eqb (Notebook.f_sub Notebook.f_one alpha) Notebook.f_zero = true ->
     g = Notebook.f_of_nat N) /\
    (forall h' theta' rest', nth_error h' theta' = Some (alpha :: rest') ->
       Notebook.grad_logLikelihood theta' D N M_min M_max h' = (inl (length h'), h' ++ [[g]]))).
Proof.
  unfold Notebook.grad_logLikelihood, Notebook.bind, Notebook.getitem, Notebook.np_array.
  split.
  - intros E; rewrite E; reflexivity.
  - intros alpha rest E; rewrite E; simpl.
    eexists; split; [reflexivity|]; split.
    + intros Hb; rewrite Hb; reflexivity.
    + intros h' theta' rest' E'; rewrite E'; reflexivity.
Qed.

Lemma grad_logLikelihood_reads_theta0_witness :
  Notebook.grad_logLikelihood 0 0 1 1 100 [[]] = (inr Notebook.IndexError, [[]]) /\
  exists g, Notebook.grad_logLikelihood 0 0 1 1 100 [[2; 5]] = (inl 1%nat, [[2; 5]; [g]]).
Proof.
  split.
  - exact (proj1 (grad_logLikelihood_reads_theta0 0 0 1 1 100 [[]]) eq_refl).
  - destruct (proj2 (grad_logLikelihood_reads_theta0 0 0 1 1 100 [[2; 5]]) 2 [5] eq_refl)
      as [g [Hg _]].
    exists g; exact Hg.
Defined.

(** ** Further properties of the notebook's code *)

(** X1: [logLikelihood] reads [theta[0]] and nothing else of [theta], for
    any float arithmetic: on an empty (or missing) [theta] it raises
    [IndexError] with the heap unchanged, and otherwise its result is the
    one for the one-entry array [[theta[0]]]. *)
Theorem logLikelihood_reads_theta0 {F : Type} `{Notebook.PyFloat F}
  (theta : nat) (D : F) (N : nat) (M_min M_max : F) (h : @Notebook.Heap F) :
  ((nth_error h theta = Some [] \/ nth_error h theta = None) ->
   Notebook.logLikelihood theta D N M_min M_max h = (inr Notebook.IndexError, h)) /\
  (forall alpha rest, nth_error h theta = Some (alpha :: rest) ->
   Notebook.logLikelihood theta D N M_min M_max h =
   (fst (Notebook.logLikelihood 0 D N M_min M_max [[alpha]]), h)).
Proof.
  unfold Notebook.logLikelihood, Notebook.bind, Notebook.getitem, Notebook.ret.
  split.
  - intros [E|E]; rewrite E; reflexivity.
  - intros alpha rest E; rewrite E; reflexivity.
Qed.

Lemma logLikelihood_reads_theta0_witness :
  Notebook.logLikelihood 0 0 1 1 100 [[]] = (inr Notebook.IndexError, [[]]) /\
  Notebook.logLikelihood 1 0 1 1 100 [[]; [2; 5]] =
  (fst (Notebook.logLikelihood 0 0 1 1 100 [[2]]), [[]; [2; 5]]).
Proof.
  split.
  - apply (proj1 (logLikelihood_reads_theta0 0 0 1 1 100 [[]])); left; reflexivity.
  - apply (proj2 (logLikelihood_reads_theta0 1 0 1 1 100 [[]; [2; 5]]) 2 [5]);
      reflexivity.
Defined.

(** Two functions continuous at [x] that agree everywhere but at [x]
    agree at [x] too. *)
Lemma continuous_punctured_eq (f g : R -> R) (x : R) :
  continuity_pt f x -> continuity_pt g x ->
  (forall y, y <> x -> f y = g y) -> f x = g x.
Proof.
  intros Hf Hg Hfg.
  apply (single_limit f (D_x no_cond x) (f x) (g x) x).
  - intros alp Halp; exists (x + alp / 2); split.
    + split; [exact I | lra].
    + unfold Rdist; replace (x + alp / 2 - x) with (alp / 2) by ring.
      rewrite Rabs_pos_eq; lra.
  - exact Hf.
  - intros eps Heps; destruct (Hg eps Heps) as [alp [Halp H]].
    exists alp; split; [exact Halp|].
    intros y [[Hy Hyx] Hd]; rewrite Hfg by congruence.
    apply H; split; [split; assumption | exact Hd].
Qed.

Lemma continuity_pt_ln (y : R) : 0 < y -> continuity_pt ln y.
Proof.
  intros Hy; apply derivable_continuous_pt.
  exists (/ y); apply derivable_pt_lim_ln; exact Hy.
Qed.

Lemma derivable_exp_scaled (K x : R) :
  derivable_pt_lim (fun h => exp (h * K)) x (exp (x * K) * K).
Proof.
  apply (derivable_pt_lim_ext (comp exp (mult_real_fct K id))).
  { intro z; unfold comp, mult_real_fct, id; rewrite Rmult_comm; reflexivity. }
  replace (exp (x * K) * K) with (exp (mult_real_fct K id x) * (K * 1))
    by (unfold mult_real_fct, id; rewrite (Rmult_comm K x); ring).
  apply derivable_pt_lim_comp;
    [apply derivable_pt_lim_scal, derivable_pt_lim_id | apply derivable_pt_lim_exp].
Qed.

(** X2: at [alpha = 1] (so [beta == 0]) [logLikelihood] uses
    [c = log(M_max / M_min)], while its value for [alpha <> 1] tends to
    [N * log(1 / log(M_max / M_min)) - D]: for [N > 0] and
    [log(M_max / M_min) <> 1] the computed log-likelihood jumps at
    [alpha = 1], so it has no derivative there, and the [float(N)] that
    [grad_logLikelihood] returns at [alpha = 1] is not one. *)
Theorem logLikelihood_jumps_at_alpha_1 (D : R) (N : nat) (M_min M_max : R)
  (Hm : 0 < M_min < M_max) (HN : (0 < N)%nat) (HL : ln (M_max / M_min) <> 1) :
  ~ continuity_pt (Notebook.logLikelihood_at D N M_min M_max) 1 /\
  ~ (exists l, derivable_pt_lim (Notebook.logLikelihood_at D N M_min M_max) 1 l) /\
  Notebook.grad_logLikelihood 0 D N M_min M_max [[1]] = (inl 1%nat, [[1]; [INR N]]).
Proof.
  set (G := Notebook.logLikelihood_at D N M_min M_max).
  set (K := ln M_max); set (k := ln M_min).
  assert (Hkk : k < K) by (apply ln_increasing; lra).
  assert (HLK : ln (M_max / M_min) = K - k).
  { unfold Rdiv; rewrite ln_mult, ln_Rinv by (try apply Rinv_0_lt_compat; lra).
    unfold K, k; ring. }
  set (phi := fun h => exp (h * K) - exp (h * k)).
  assert (Dphi : derivable_pt_lim phi 0 (K - k)).
  { replace (K - k) with (exp (0 * K) * K - exp (0 * k) * k)
      by (rewrite !Rmult_0_l, exp_0; ring).
    apply derivable_pt_lim_minus; apply derivable_exp_scaled. }
  assert (Hphi : forall h, h <> 0 -> phi h <> 0).
  { intros h Hh E; unfold phi in E.
    assert (E' : h * K = h * k) by (apply exp_inv; lra).
    apply Rmult_eq_reg_l in E'; [lra | exact Hh]. }
  set (psi := fun h => if Req_EM_T h 0 then K - k else phi h / h).
  assert (Cpsi : continuity_pt psi 0).
  { intros eps Heps; destruct (Dphi eps Heps) as [del Hdel].
    exists del; split; [apply cond_pos|].
    intros x [[_ Hx] Hd]; simpl in Hd |- *; unfold Rdist in Hd |- *.
    rewrite Rminus_0_r in Hd.
    unfold psi; destruct (Req_EM_T x 0) as [E|_]; [congruence|].
    destruct (Req_EM_T 0 0) as [_|E]; [|congruence].
    specialize (Hdel x (not_eq_sym Hx) Hd).
    replace (phi (0 + x) - phi 0) with (phi x) in Hdel
      by (unfold phi; rewrite Rplus_0_l, !Rmult_0_l; ring).
    exact Hdel. }
  set (chi := fun h => INR N * ln (/ psi h) - (1 - h) * D).
  assert (Cchi : continuity_pt chi 0).
  { assert (Hpsi0 : psi 0 = K - k)
      by (unfold psi; destruct (Req_EM_T 0 0); [reflexivity | congruence]).
    assert (C1 : continuity_pt (comp ln (/ psi)%F) 0).
    { apply continuity_pt_comp.
      - apply continuity_pt_inv; [exact Cpsi | rewrite Hpsi0; lra].
      - unfold inv_fct; rewrite Hpsi0; apply continuity_pt_ln.
        apply Rinv_0_lt_compat; lra. }
    assert (C2 : continuity_pt (fun h => (1 - h) * D) 0).
    { apply (continuity_pt_mult (fct_cte 1 - id)%F (fct_cte D)).
      - apply continuity_pt_minus;
          [apply continuity_pt_const; intros ? ?; reflexivity | apply derivable_continuous_pt, derivable_pt_id].
      - apply continuity_pt_const; intros ? ?; reflexivity. }
    apply (continuity_pt_minus (mult_real_fct (INR N) (comp ln (/ psi)%F))
             (fun h => (1 - h) * D));
      [apply continuity_pt_scal; exact C1 | exact C2]. }
  assert (Hagree : forall h, h <> 0 -> comp G (fun h => 1 - h) h = chi h).
  { intros h Hh; unfold comp, G, chi, Notebook.logLikelihood_at, Notebook.logLikelihood,
      Notebook.bind, Notebook.getitem, Notebook.ret; cbn -[Rpower ln INR].
    destruct (Req_EM_T (1 - (1 - h)) 0) as [E|_]; [lra|].
    replace (1 - (1 - h)) with h by ring.
    unfold psi; destruct (Req_EM_T h 0) as [E|_]; [contradiction|].
    f_equal; f_equal; f_equal.
    unfold Rpower; fold K k; fold (phi h).
    field; split; first [exact Hh | apply Hphi; exact Hh]. }
  assert (Hnc : ~ continuity_pt G 1).
  { intros CG.
    assert (CGc : continuity_pt (comp G (fun h => 1 - h)) 0).
    { apply continuity_pt_comp.
      - apply (continuity_pt_minus (fct_cte 1) id);
          [apply continuity_pt_const; intros ? ?; reflexivity | apply derivable_continuous_pt, derivable_pt_id].
      - rewrite Rminus_0_r; exact CG. }
    pose proof (continuous_punctured_eq _ _ 0 CGc Cchi Hagree) as E.
    unfold comp, G, chi, Notebook.logLikelihood_at, Notebook.logLikelihood,
      Notebook.bind, Notebook.getitem, Notebook.ret in E; cbn -[Rpower ln INR] in E.
    rewrite Rminus_0_r, Rminus_diag in E.
    destruct (Req_EM_T 0 0) as [_|E0]; [|congruence].
    replace (psi 0) with (K - k) in E
      by (unfold psi; destruct (Req_EM_T 0 0); [reflexivity | congruence]).
    rewrite HLK, ln_Rinv in E by lra.
    assert (HN' : 0 < INR N) by (apply lt_0_INR; exact HN).
    assert (Hln : ln (K - k) = 0) by nra.
    apply HL; rewrite HLK, <- (exp_ln (K - k)) by lra; rewrite Hln, exp_0; reflexivity. }
  split; [exact Hnc|]; split.
  - intros [l Hl]; apply Hnc, derivable_continuous_pt; exists l; exact Hl.
  - unfold Notebook.grad_logLikelihood, Notebook.bind, Notebook.getitem, Notebook.np_array.
    cbn -[Rpower ln INR].
    destruct (Req_EM_T (1 - 1) 0) as [_|E]; [reflexivity | lra].
Qed.

Lemma logLikelihood_jumps_at_alpha_1_witness :
  ~ continuity_pt (Notebook.logLikelihood_at 0 1 1 100) 1 /\
  ~ (exists l, derivable_pt_lim (Notebook.logLikelihood_at 0 1 1 100) 1 l) /\
  Notebook.grad_logLikelihood 0 0 1 1 100 [[1]] = (inl 1%nat, [[1]; [INR 1]]).
Proof.
  apply (logLikelihood_jumps_at_alpha_1 0 1 1 100).
  - lra.
  - lia.
  - replace (100 / 1) with 100 by field; intro E.
    assert (Hlt : ln (exp 1) < ln 100).
    { apply ln_increasing; [apply exp_pos | pose proof exp_le_3; lra]. }
    rewrite ln_exp in Hlt; lra.
Defined.
